(** * Quantum++ exception hierarchy ([include/classes/exception.h])

    A shallow embedding of the classes of namespace [qpp::exception]:
    the abstract base class [Exception], the thirty stateless classes that
    inherit its constructor and override [type_description], and
    [CustomException], which carries a message of its own.

    [Exception::type_description] returns a [std::string] by value and is
    embedded as a pure function.  [Exception::what] returns a [const char*]
    obtained from a [std::string] that is local to the call, so it is
    embedded over an explicit store of string objects in which the lifetime
    of that local is visible. *)

From stdpp Require Import base list strings.

(** ** The store of [std::string] objects *)

Module StdString.

(** A string object is either within its lifetime, holding characters, or
    destroyed. *)
Inductive cell : Type :=
| Live (chars : string)
| Dead.

(** The store: every string object ever created, by creation order. *)
Definition memory : Type := list cell.

(** A handle on a string object. *)
Definition object : Type := nat.

(** A [const char*]: a position in the character buffer of an object. *)
Record pointer : Type := Pointer { block : object ; offset : nat }.

(** What dereferencing a [const char*] as a C string gives. *)
Inductive read_result : Type :=
| Chars (s : string)
| Undefined.

(** Computations on the store; [None] is a use of a destroyed object. *)
Definition M (A : Type) : Type := memory -> option (A * memory).

Definition ret {A} (a : A) : M A := fun m => Some (a, m).

Definition bind {A B} (c : M A) (k : A -> M B) : M B :=
  fun m => match c m with
           | Some (a, m') => k a m'
           | None => None
           end.

Declare Scope cxx_scope.
Delimit Scope cxx_scope with cxx.
Notation "x <- c ;; k" := (bind c (fun x => k))
  (at level 100, c at next level, right associativity) : cxx_scope.
Notation "c ;; k" := (bind c (fun _ => k))
  (at level 100, right associativity) : cxx_scope.

(** [std::string s;] *)
Definition ctor : M object :=
  fun m => Some (length m, m ++ [Live ""]).

(** [s += t;] *)
Definition append (s : object) (t : string) : M unit :=
  fun m => match m !! s with
           | Some (Live chars) => Some (tt, <[s := Live (chars +:+ t)]> m)
           | _ => None
           end.

(** [s.c_str()] *)
Definition c_str (s : object) : M pointer :=
  fun m => match m !! s with
           | Some (Live _) => Some (Pointer s 0, m)
           | _ => None
           end.

(** The destructor, run when [s] goes out of scope. *)
Definition dtor (s : object) : M unit :=
  fun m => match m !! s with
           | Some (Live _) => Some (tt, <[s := Dead]> m)
           | _ => None
           end.

(** The characters of a buffer from position [n] on. *)
Fixpoint drop_chars (n : nat) (s : string) : string :=
  match n, s with
  | 0, _ => s
  | S n', String _ s' => drop_chars n' s'
  | S _, EmptyString => EmptyString
  end.

(** A C string ends at the first NUL character. *)
Fixpoint until_nul (s : string) : string :=
  match s with
  | EmptyString => EmptyString
  | String c s' =>
      if Ascii.eqb c Ascii.zero then EmptyString else String c (until_nul s')
  end.

(** No NUL character occurs in [s]. *)
Fixpoint nul_free (s : string) : bool :=
  match s with
  | EmptyString => true
  | String c s' => negb (Ascii.eqb c Ascii.zero) && nul_free s'
  end.

(** Reading a [const char*] as a C string.  The read is defined only while
    the object that owns the buffer is within its lifetime. *)
Definition read_cstr (p : pointer) (m : memory) : read_result :=
  match m !! block p with
  | Some (Live chars) => Chars (until_nul (drop_chars (offset p) chars))
  | _ => Undefined
  end.

End StdString.

(** ** The classes of [qpp::exception] *)

Module exception.

Import StdString.
Local Open Scope cxx_scope.

(** The classes that inherit the constructor of [Exception]
    ([using Exception::Exception;]) and have no data member of their
    own. *)
Inductive Kind : Type :=
| Unknown
| ZeroSize
| MatrixNotSquare
| MatrixNotCvector
| MatrixNotRvector
| MatrixNotVector
| MatrixNotSquareNorCvector
| MatrixNotSquareNorRvector
| MatrixNotSquareNorVector
| MatrixMismatchSubsys
| DimsInvalid
| DimsNotEqual
| DimsMismatchMatrix
| DimsMismatchCvector
| DimsMismatchRvector
| DimsMismatchVector
| SubsysMismatchDims
| PermInvalid
| PermMismatchDims
| NotQubitMatrix
| NotQubitCvector
| NotQubitRvector
| NotQubitVector
| NotQubitSubsys
| NotBipartite
| NoCodeword
| OutOfRange
| TypeMismatch
| SizeMismatch
| UndefinedType.

(** An object of a class derived from [Exception], tagged by its dynamic
    type.  [where_] is the private member of the base class; [what_] is
    the member that [CustomException] adds. *)
Inductive Exception : Type :=
| Fixed (K : Kind) (where_ : string)
| CustomException (where_ : string) (what_ : string).

(** [Exception(const std::string& where) : where_{where} {}], inherited by
    the class [K]; [origin] is the argument [where]. *)
Definition new (K : Kind) (origin : string) : Exception := Fixed K origin.

Definition where_ (this : Exception) : string :=
  match this with
  | Fixed _ w => w
  | CustomException w _ => w
  end.

(** [virtual std::string type_description() const], dispatched on the
    dynamic type of [this]. *)
Definition type_description (this : Exception) : string :=
  match this with
  | Fixed Unknown _ => "UNKNOWN EXCEPTION"
  | Fixed ZeroSize _ => "Object has zero size"
  | Fixed MatrixNotSquare _ => "Matrix is not square"
  | Fixed MatrixNotCvector _ => "Matrix is not a column vector"
  | Fixed MatrixNotRvector _ => "Matrix is not a row vector"
  | Fixed MatrixNotVector _ => "Matrix is not a vector"
  | Fixed MatrixNotSquareNorCvector _ =>
      "Matrix is not square nor column vector"
  | Fixed MatrixNotSquareNorRvector _ => "Matrix is not square nor row vector"
  | Fixed MatrixNotSquareNorVector _ => "Matrix is not square nor vector"
  | Fixed MatrixMismatchSubsys _ => "Matrix mismatch subsystems"
  | Fixed DimsInvalid _ => "Invalid dimension(s)"
  | Fixed DimsNotEqual _ => "Dimensions not equal"
  | Fixed DimsMismatchMatrix _ => "Dimension(s) mismatch matrix size"
  | Fixed DimsMismatchCvector _ => "Dimension(s) mismatch column vector size"
  | Fixed DimsMismatchRvector _ => "Dimension(s) mismatch row vector size"
  | Fixed DimsMismatchVector _ => "Dimension(s) mismatch vector size"
  | Fixed SubsysMismatchDims _ => "Subsystems mismatch dimensions"
  | Fixed PermInvalid _ => "Invalid permutation"
  | Fixed PermMismatchDims _ => "Permutation mismatch dimensions"
  | Fixed NotQubitMatrix _ => "Matrix is not 2 x 2"
  | Fixed NotQubitCvector _ => "Column vector is not 2 x 1"
  | Fixed NotQubitRvector _ => "Row vector is not 1 x 2"
  | Fixed NotQubitVector _ => "Vector is not 2 x 1 nor 1 x 2"
  | Fixed NotQubitSubsys _ => "Subsystems are not qubits"
  | Fixed NotBipartite _ => "Not bi-partite"
  | Fixed NoCodeword _ => "Codeword does not exist"
  | Fixed OutOfRange _ => "Parameter out of range"
  | Fixed TypeMismatch _ => "Type mismatch"
  | Fixed SizeMismatch _ => "Size mismatch"
  | Fixed UndefinedType _ => "Not defined for this type"
  | CustomException _ what_ => "CUSTOM EXCEPTION " +:+ what_
  end.

(** The rendered message in the words of the specification:
    ["IN " + origin + ": " + describe() + "!"], where the origin is the
    one given at construction. *)
Definition render_spec (this : Exception) : string :=
  "IN " +:+ where_ this +:+ ": " +:+ type_description this +:+ "!".

(** The statements of [Exception::what] up to its [return]: the local
    [msg_] and the value of the returned expression [msg_.c_str()], with
    [msg_] still in scope. *)
Definition what_body (this : Exception) : M (object * pointer) :=
  msg_ <- ctor ;;
  append msg_ "IN " ;;
  append msg_ (where_ this) ;;
  append msg_ ": " ;;
  append msg_ (type_description this) ;;
  append msg_ "!" ;;
  p <- c_str msg_ ;;
  ret (msg_, p).

(** [virtual const char* what() const noexcept]: the body, then the end
    of the scope of the local [msg_], then the pointer handed to the
    caller. *)
Definition what (this : Exception) : M pointer :=
  r <- what_body this ;;
  dtor (fst r) ;;
  ret (snd r).

(** The text [what] has assembled at its [return] statement, read as a C
    string through the pointer it is about to return. *)
Definition assembled_message (this : Exception) (m : memory) : read_result :=
  match what_body this m with
  | Some (r, m') => read_cstr (snd r) m'
  | None => Undefined
  end.

(** The rendered message as a caller gets it: call [what], then read the
    C string at the pointer it returned. *)
Definition rendered_message (this : Exception) (m : memory) : read_result :=
  match what this m with
  | Some (p, m') => read_cstr p m'
  | None => Undefined
  end.

(** [inline std::string Exception::type_description() const]: the body
    that the header gives to the pure virtual function of the base class.
    Virtual dispatch never selects it; only a qualified call
    [Exception::type_description()] reaches it. *)
Definition Exception_type_description : string := "qpp::exception::Exception".

End exception.

Import StdString exception.

(** ** Strings *)

Section Strings.

Lemma append_assoc (s t u : string) : (s +:+ t) +:+ u = s +:+ (t +:+ u).
Proof.
  induction s as [|c s IH]; [reflexivity|].
  change (String c ((s +:+ t) +:+ u) = String c (s +:+ (t +:+ u))).
  now rewrite IH.
Qed.

Lemma until_nul_nul_free (s : string) : nul_free s = true -> until_nul s = s.
Proof.
  induction s as [|c s IH]; cbn; [reflexivity|].
  destruct (Ascii.eqb c Ascii.zero); cbn; [discriminate|].
  intros H. now rewrite IH.
Qed.

Lemma nul_free_append (s t : string) :
  nul_free (s +:+ t) = nul_free s && nul_free t.
Proof.
  induction s as [|c s IH]; [reflexivity|].
  change (negb (Ascii.eqb c Ascii.zero) && nul_free (s +:+ t)
          = negb (Ascii.eqb c Ascii.zero) && nul_free s && nul_free t).
  rewrite IH. now rewrite andb_assoc.
Qed.

End Strings.

(** ** The store *)

Section Store.

Implicit Types (m : memory) (c : cell).

Lemma lookup_fresh m c : (m ++ [c]) !! length m = Some c.
Proof. apply list_lookup_middle. reflexivity. Qed.

Lemma insert_fresh m c c' : <[length m := c']> (m ++ [c]) = m ++ [c'].
Proof.
  replace (length m) with (length m + 0) at 1 by lia.
  now rewrite insert_app_r.
Qed.

(** Appending to an object created last in the store. *)
Lemma append_fresh m (chars t : string) :
  append (length m) t (m ++ [Live chars])
  = Some (tt, m ++ [Live (chars +:+ t)]).
Proof. unfold append. now rewrite lookup_fresh, insert_fresh. Qed.

Lemma c_str_fresh m (chars : string) :
  c_str (length m) (m ++ [Live chars])
  = Some (Pointer (length m) 0, m ++ [Live chars]).
Proof. unfold c_str. now rewrite lookup_fresh. Qed.

Lemma dtor_fresh m (chars : string) :
  dtor (length m) (m ++ [Live chars]) = Some (tt, m ++ [Dead]).
Proof. unfold dtor. now rewrite lookup_fresh, insert_fresh. Qed.

Lemma read_cstr_live m (chars : string) :
  read_cstr (Pointer (length m) 0) (m ++ [Live chars])
  = Chars (until_nul chars).
Proof. unfold read_cstr. cbn. now rewrite lookup_fresh. Qed.

Lemma read_cstr_dead m :
  read_cstr (Pointer (length m) 0) (m ++ [Dead]) = Undefined.
Proof. unfold read_cstr. cbn. now rewrite lookup_fresh. Qed.

End Store.

(** ** [Exception::what] on the store *)

Section What.

Implicit Types (this : Exception) (m : memory).

(** At the [return] statement, [msg_] is the object created last, it
    holds [render_spec this], and the returned expression points at its
    first character. *)
Lemma what_body_run this m :
  what_body this m
  = Some ((length m, Pointer (length m) 0), m ++ [Live (render_spec this)]).
Proof.
  unfold what_body, bind, ctor, ret, render_spec.
  rewrite !append_fresh, c_str_fresh.
  now rewrite !append_assoc.
Qed.

(** [what] always returns, and what it returns points into the local
    [msg_], which has been destroyed by then. *)
Lemma what_run this m :
  what this m = Some (Pointer (length m) 0, m ++ [Dead]).
Proof.
  unfold what, bind, ret. rewrite what_body_run. cbn [fst snd].
  now rewrite dtor_fresh.
Qed.

Lemma assembled_message_eq this m :
  assembled_message this m = Chars (until_nul (render_spec this)).
Proof.
  unfold assembled_message. rewrite what_body_run. cbn [snd].
  apply read_cstr_live.
Qed.

Lemma rendered_message_undefined this m :
  rendered_message this m = Undefined.
Proof.
  unfold rendered_message. rewrite what_run. apply read_cstr_dead.
Qed.

(** While [msg_] is alive the text reads back whole, as long as the
    strings the exception was built from hold no NUL character. *)
Lemma assembled_message_nul_free this m :
  nul_free (where_ this) = true ->
  nul_free (type_description this) = true ->
  assembled_message this m = Chars (render_spec this).
Proof.
  intros Hw Hd. rewrite assembled_message_eq.
  rewrite until_nul_nul_free; [reflexivity|].
  unfold render_spec. rewrite !nul_free_append, Hw, Hd. reflexivity.
Qed.

(** The store after [what] is the store before it, plus the remains of
    [msg_]: no object that existed before the call is touched. *)
Lemma what_preserves_store this m p m' (o : object) (c : cell) :
  what this m = Some (p, m') -> m !! o = Some c -> m' !! o = Some c.
Proof.
  rewrite what_run. intros [= <- <-] Ho.
  now apply lookup_app_l_Some.
Qed.

End What.

(** ** Descriptions *)

Section Descriptions.

Lemma where_new (K : Kind) (origin : string) : where_ (new K origin) = origin.
Proof. reflexivity. Qed.

(** C2.  For every class with a fixed description and every origin, the
    empty one included, [type_description] on an instance built with that
    origin returns exactly the text that the header gives for the class:
    the thirty texts below.  The text depends on the class alone, so it is
    the same for all instances of a class. *)
Theorem type_description_fixed_kind (K : Kind) (origin : string) :
  type_description (new K origin)
  = match K with
    | Unknown => "UNKNOWN EXCEPTION"
    | ZeroSize => "Object has zero size"
    | MatrixNotSquare => "Matrix is not square"
    | MatrixNotCvector => "Matrix is not a column vector"
    | MatrixNotRvector => "Matrix is not a row vector"
    | MatrixNotVector => "Matrix is not a vector"
    | MatrixNotSquareNorCvector => "Matrix is not square nor column vector"
    | MatrixNotSquareNorRvector => "Matrix is not square nor row vector"
    | MatrixNotSquareNorVector => "Matrix is not square nor vector"
    | MatrixMismatchSubsys => "Matrix mismatch subsystems"
    | DimsInvalid => "Invalid dimension(s)"
    | DimsNotEqual => "Dimensions not equal"
    | DimsMismatchMatrix => "Dimension(s) mismatch matrix size"
    | DimsMismatchCvector => "Dimension(s) mismatch column vector size"
    | DimsMismatchRvector => "Dimension(s) mismatch row vector size"
    | DimsMismatchVector => "Dimension(s) mismatch vector size"
    | SubsysMismatchDims => "Subsystems mismatch dimensions"
    | PermInvalid => "Invalid permutation"
    | PermMismatchDims => "Permutation mismatch dimensions"
    | NotQubitMatrix => "Matrix is not 2 x 2"
    | NotQubitCvector => "Column vector is not 2 x 1"
    | NotQubitRvector => "Row vector is not 1 x 2"
    | NotQubitVector => "Vector is not 2 x 1 nor 1 x 2"
    | NotQubitSubsys => "Subsystems are not qubits"
    | NotBipartite => "Not bi-partite"
    | NoCodeword => "Codeword does not exist"
    | OutOfRange => "Parameter out of range"
    | TypeMismatch => "Type mismatch"
    | SizeMismatch => "Size mismatch"
    | UndefinedType => "Not defined for this type"
    end.
Proof. destruct K; reflexivity. Qed.

(** C3.  The description of a [CustomException] is ["CUSTOM EXCEPTION "]
    followed by the message it was built with, for every origin and every
    message; built with origin ["validate"] and message
    ["negative probability"] it is
    ["CUSTOM EXCEPTION negative probability"]. *)
Theorem type_description_custom :
  (forall origin detail : string,
      type_description (CustomException origin detail)
      = "CUSTOM EXCEPTION " +:+ detail) /\
  type_description (CustomException "validate" "negative probability")
  = "CUSTOM EXCEPTION negative probability".
Proof. split; [intros origin detail|]; reflexivity. Qed.

(** C9.  The description of a class with a fixed description is not the
    empty string, and two such classes with the same description are the
    same class. *)
Theorem type_description_nonempty_injective
    (K1 K2 : Kind) (origin1 origin2 : string) :
  type_description (new K1 origin1) <> "" /\
  (type_description (new K1 origin1) = type_description (new K2 origin2) ->
   K1 = K2).
Proof.
  split.
  - destruct K1; discriminate.
  - destruct K1, K2; intros H; solve [reflexivity | discriminate H].
Qed.

Lemma type_description_nonempty_injective_witness :
  type_description (new PermInvalid "f")
  = type_description (new PermInvalid "g") /\
  PermInvalid = PermInvalid.
Proof.
  split; [reflexivity|].
  apply (proj2 (type_description_nonempty_injective
                  PermInvalid PermInvalid "f" "g")).
  reflexivity.
Defined.

End Descriptions.

(** ** Rendered messages *)

Section Rendering.

Lemma type_description_fixed_nul_free (K : Kind) (origin : string) :
  nul_free (type_description (new K origin)) = true.
Proof. destruct K; reflexivity. Qed.

(** For a class with a fixed description and an origin without NUL
    character, the text [what] has assembled at its [return] is the one
    the specification asks for. *)
Lemma assembled_message_fixed (K : Kind) (origin : string) (m : memory) :
  nul_free origin = true ->
  assembled_message (new K origin) m = Chars (render_spec (new K origin)).
Proof.
  intros H. apply assembled_message_nul_free; [exact H|].
  apply type_description_fixed_nul_free.
Qed.

(** C1.  For every exception and every store, the text [what] has
    assembled at its [return] statement is the C string of ["IN "], the
    origin, [": "], the description and ["!"] in this order, but the
    rendered message, read through the pointer that [what] returned, is
    undefined: the pointer leads into the local [msg_], which is destroyed
    when [what] returns.  On a [ZeroSize] built with origin ["f"] the
    assembled text is ["IN f: Object has zero size!"] and the rendered
    message is undefined. *)
Theorem what_rendered_undefined :
  (forall (this : Exception) (m : memory),
      assembled_message this m
      = Chars (until_nul ("IN " +:+ where_ this +:+ ": "
                          +:+ type_description this +:+ "!")) /\
      rendered_message this m = Undefined) /\
  assembled_message (new ZeroSize "f") [] = Chars "IN f: Object has zero size!" /\
  what (new ZeroSize "f") [] = Some (Pointer 0 0, [Dead]) /\
  rendered_message (new ZeroSize "f") [] = Undefined.
Proof.
  split; [|repeat split].
  intros this m. split.
  - apply assembled_message_eq.
  - apply rendered_message_undefined.
Qed.

(** C4.  Building an object of a class with a fixed description stores
    the origin as given, for every class and every origin.  For a
    [ZeroSize] built with origin ["foo::bar"] the text assembled by [what]
    starts with ["IN foo::bar: "], but the rendered message, read through
    the pointer that [what] returned, is undefined. *)
Theorem what_origin_stored_rendered_undefined :
  (forall (K : Kind) (origin : string), where_ (new K origin) = origin) /\
  assembled_message (new ZeroSize "foo::bar") []
  = Chars ("IN foo::bar: " +:+ "Object has zero size!") /\
  rendered_message (new ZeroSize "foo::bar") [] = Undefined.
Proof. split; [apply where_new|split; reflexivity]. Qed.

(** C5.  [what] on a [MatrixNotSquare] built with origin ["apply"]
    assembles ["IN apply: Matrix is not square!"] in its local [msg_];
    the rendered message, read through the pointer it returned, is
    undefined. *)
Theorem what_MatrixNotSquare_apply :
  assembled_message (new MatrixNotSquare "apply") []
  = Chars "IN apply: Matrix is not square!" /\
  what (new MatrixNotSquare "apply") [] = Some (Pointer 0 0, [Dead]) /\
  rendered_message (new MatrixNotSquare "apply") [] = Undefined.
Proof. repeat split. Qed.

(** C6.  [what] on a [PermMismatchDims] built with origin ["syspermute"]
    assembles ["IN syspermute: Permutation mismatch dimensions!"] in its
    local [msg_]; the rendered message, read through the pointer it
    returned, is undefined. *)
Theorem what_PermMismatchDims_syspermute :
  assembled_message (new PermMismatchDims "syspermute") []
  = Chars "IN syspermute: Permutation mismatch dimensions!" /\
  what (new PermMismatchDims "syspermute") [] = Some (Pointer 0 0, [Dead]) /\
  rendered_message (new PermMismatchDims "syspermute") [] = Undefined.
Proof. repeat split. Qed.

(** C7.  Every call of [what] returns, adds one destroyed string to the
    store and changes nothing else.  Two calls in a row on one [ZeroSize]
    built with origin ["f"] each create and destroy a local of their own;
    after the two calls neither returned pointer can be read, so the calls
    yield no rendered messages that could be compared. *)
Theorem what_called_twice :
  (forall (this : Exception) (m : memory),
      what this m = Some (Pointer (length m) 0, m ++ [Dead])) /\
  what (new ZeroSize "f") [] = Some (Pointer 0 0, [Dead]) /\
  what (new ZeroSize "f") [Dead] = Some (Pointer 1 0, [Dead; Dead]) /\
  read_cstr (Pointer 0 0) [Dead; Dead] = Undefined /\
  read_cstr (Pointer 1 0) [Dead; Dead] = Undefined.
Proof. split; [apply what_run|repeat split]. Qed.

(** C8.  The text [what] assembles is the same in every store, so it is
    determined by the class, the origin and the message the exception was
    built with; the rendered message, read through the returned pointer,
    is undefined in every store.  For two [PermInvalid] objects built with
    origin ["g"], one rendered in an empty store and one in a store that
    holds a live string, the assembled text is
    ["IN g: Invalid permutation!"] both times and the rendered message is
    undefined both times. *)
Theorem what_same_inputs :
  (forall (this : Exception) (m1 m2 : memory),
      assembled_message this m1 = assembled_message this m2 /\
      rendered_message this m1 = Undefined /\
      rendered_message this m2 = Undefined) /\
  assembled_message (new PermInvalid "g") []
  = Chars "IN g: Invalid permutation!" /\
  assembled_message (new PermInvalid "g") [Live "x"]
  = Chars "IN g: Invalid permutation!" /\
  rendered_message (new PermInvalid "g") [] = Undefined /\
  rendered_message (new PermInvalid "g") [Live "x"] = Undefined.
Proof.
  split; [|repeat split].
  intros this m1 m2. rewrite !assembled_message_eq.
  rewrite !rendered_message_undefined. repeat split.
Qed.

(** C10.  The description of an [Unknown] is ["UNKNOWN EXCEPTION"] for
    every origin.  For an [Unknown] built with origin ["f"], [what]
    assembles ["IN f: UNKNOWN EXCEPTION!"], but the rendered message, read
    through the pointer that [what] returned, is undefined. *)
Theorem what_Unknown :
  (forall origin : string,
      type_description (new Unknown origin) = "UNKNOWN EXCEPTION") /\
  assembled_message (new Unknown "f") [] = Chars "IN f: UNKNOWN EXCEPTION!" /\
  rendered_message (new Unknown "f") [] = Undefined.
Proof. split; [intros origin|split]; reflexivity. Qed.

End Rendering.

(** ** More on strings *)

Section StringSplitting.

Lemma append_cons (c : Ascii.ascii) (s t : string) :
  String c s +:+ t = String c (s +:+ t).
Proof. reflexivity. Qed.

Lemma append_nil_r (s : string) : s +:+ "" = s.
Proof.
  induction s as [|c s IH]; [reflexivity|].
  now rewrite append_cons, IH.
Qed.

Lemma length_append (s t : string) :
  String.length (s +:+ t) = String.length s + String.length t.
Proof.
  induction s as [|c s IH]; [reflexivity|].
  rewrite append_cons. cbn [String.length]. now rewrite IH.
Qed.

Lemma drop_chars_append (u t : string) :
  drop_chars (String.length u) (u +:+ t) = t.
Proof.
  induction u as [|c u IH]; [now destruct t|].
  rewrite append_cons. exact IH.
Qed.

(** Two ways of cutting one string: the shorter tail is the end of the
    longer one. *)
Lemma append_eq_split (o1 o2 t1 t2 : string) :
  o1 +:+ t1 = o2 +:+ t2 ->
  String.length t1 <= String.length t2 ->
  exists u, o1 = o2 +:+ u /\ t2 = u +:+ t1.
Proof.
  revert o1. induction o2 as [|c o2 IH]; intros o1 H Hlen.
  - exists o1. split; [reflexivity|]. symmetry. exact H.
  - destruct o1 as [|c' o1].
    + exfalso. apply (f_equal String.length) in H.
      change ("" +:+ t1) with t1 in H.
      rewrite length_append in H. cbn [String.length] in H. lia.
    + rewrite !append_cons in H. injection H as -> H.
      destruct (IH o1 H Hlen) as (u & -> & ->).
      exists u. split; reflexivity.
Qed.

Lemma until_nul_append (s t : string) :
  nul_free s = true -> until_nul (s +:+ t) = s +:+ until_nul t.
Proof.
  induction s as [|c s IH]; [reflexivity|].
  rewrite !append_cons. cbn [nul_free until_nul].
  destruct (Ascii.eqb c Ascii.zero); cbn [negb andb]; [discriminate|].
  intros H. now rewrite IH.
Qed.

Lemma until_nul_cut (a b : string) :
  nul_free a = true -> until_nul (a +:+ String Ascii.zero b) = a.
Proof.
  intros H. rewrite until_nul_append by exact H.
  cbn [until_nul]. rewrite Ascii.eqb_refl. apply append_nil_r.
Qed.

End StringSplitting.

(** ** The catalogue of descriptions as a whole *)

Section Catalogue.

(** X1.  An exception object is determined by its origin and its
    description: two objects with the same [where_] and the same
    [type_description] are of the same class and, for [CustomException],
    carry the same message. *)
Theorem exception_determined_by_origin_and_description (e1 e2 : Exception) :
  where_ e1 = where_ e2 ->
  type_description e1 = type_description e2 ->
  e1 = e2.
Proof.
  destruct e1 as [K1 o1|o1 d1], e2 as [K2 o2|o2 d2];
    cbn [where_]; intros -> H.
  - destruct K1, K2; solve [reflexivity | discriminate H].
  - destruct K1; cbv in H; discriminate H.
  - destruct K2; cbv in H; discriminate H.
  - cbv in H. injection H as ->. reflexivity.
Qed.

Lemma exception_determined_by_origin_and_description_witness :
  CustomException "f" "negative probability"
  = CustomException "f" "negative probability".
Proof.
  apply exception_determined_by_origin_and_description; reflexivity.
Defined.

(** X2.  No exception object reports the text that the header gives to the
    pure virtual [Exception::type_description]: every class of the
    hierarchy overrides it with a different text. *)
Theorem base_description_never_reported (this : Exception) :
  String.eqb (type_description this) Exception_type_description = false.
Proof. destruct this as [K o|o d]; [destruct K|]; reflexivity. Qed.

End Catalogue.

(** ** The text assembled by [what] *)

Section AssembledText.

Implicit Types (this : Exception) (m : memory).

Lemma Chars_inj (s t : string) : Chars s = Chars t -> s = t.
Proof. now intros [= ->]. Qed.

(** The end of the text of one class with a fixed description is not the
    end of the text of another such class. *)
Lemma fixed_tail_suffix (K1 K2 : Kind) (o1 o2 u : string) :
  ": " +:+ type_description (new K2 o2) +:+ "!"
  = u +:+ ": " +:+ type_description (new K1 o1) +:+ "!" ->
  K1 = K2 /\ u = "".
Proof.
  set (t2 := ": " +:+ type_description (new K2 o2) +:+ "!").
  set (t1 := ": " +:+ type_description (new K1 o1) +:+ "!").
  intros H.
  assert (Hl : String.length t2 = String.length u + String.length t1)
    by (rewrite H; apply length_append).
  assert (Hd : drop_chars (String.length t2 - String.length t1) t2 = t1).
  { replace (String.length t2 - String.length t1) with (String.length u)
      by lia.
    rewrite H. apply drop_chars_append. }
  assert (Hu : exists n, n = String.length u
                         /\ n = String.length t2 - String.length t1)
    by (eexists; split; [reflexivity|lia]).
  destruct Hu as (n & Hn & Hu).
  clear H Hl. subst t1 t2.
  destruct K1, K2; vm_compute in Hd; try discriminate Hd;
    vm_compute in Hu;
    (split;
     [reflexivity
     |destruct u; [reflexivity|rewrite Hu in Hn; discriminate Hn]]).
Qed.

(** X3.  For classes with a fixed description and origins without NUL
    character, the text assembled by [what] tells the class and the origin:
    two objects whose assembled texts read the same are of the same class
    and were built with the same origin. *)
Theorem assembled_message_fixed_injective
    (K1 K2 : Kind) (origin1 origin2 : string) m1 m2 :
  nul_free origin1 = true ->
  nul_free origin2 = true ->
  assembled_message (new K1 origin1) m1 = assembled_message (new K2 origin2) m2 ->
  K1 = K2 /\ origin1 = origin2.
Proof.
  intros H1 H2 H.
  rewrite !assembled_message_fixed in H by assumption.
  apply Chars_inj in H. unfold render_spec in H. rewrite !where_new in H.
  apply (inj (String.app "IN ")) in H.
  destruct (Nat.le_ge_cases
              (String.length (": " +:+ type_description (new K1 origin1) +:+ "!"))
              (String.length (": " +:+ type_description (new K2 origin2) +:+ "!")))
    as [Hle|Hle].
  - destruct (append_eq_split _ _ _ _ H Hle) as (u & Ho & Ht).
    apply fixed_tail_suffix in Ht as [-> ->].
    split; [reflexivity|]. rewrite Ho. apply append_nil_r.
  - symmetry in H.
    destruct (append_eq_split _ _ _ _ H Hle) as (u & Ho & Ht).
    apply fixed_tail_suffix in Ht as [-> ->].
    split; [reflexivity|]. rewrite Ho. symmetry. apply append_nil_r.
Qed.

Lemma assembled_message_fixed_injective_witness :
  PermInvalid = PermInvalid /\ "syspermute" = "syspermute".
Proof.
  apply (assembled_message_fixed_injective
           PermInvalid PermInvalid "syspermute" "syspermute" [] [Live "x"]);
    reflexivity.
Defined.

(** X4.  With [CustomException] the assembled text no longer tells the
    object: for every class [K] with a fixed description and all strings
    [o] and [d], a [CustomException] with origin [o] and a message that
    ends in [": "] and the description of [K] assembles the same text as an
    object of class [K] whose origin is [o], [": CUSTOM EXCEPTION "] and
    the rest of that message. *)
Theorem assembled_message_custom_collision
    (K : Kind) (o d : string) m :
  assembled_message
    (CustomException o (d +:+ ": " +:+ type_description (new K ""))) m
  = assembled_message (new K (o +:+ ": CUSTOM EXCEPTION " +:+ d)) m.
Proof.
  rewrite !assembled_message_eq. do 2 f_equal.
  unfold render_spec. cbn [where_ new].
  replace (type_description (Fixed K (o +:+ ": CUSTOM EXCEPTION " +:+ d)))
    with (type_description (new K "")) by (destruct K; reflexivity).
  cbn [type_description].
  change ": CUSTOM EXCEPTION " with (": " +:+ "CUSTOM EXCEPTION ").
  now rewrite !append_assoc.
Qed.

End AssembledText.

(** ** The assembled text as a C string *)

Section CString.

Implicit Types (this : Exception) (m : memory).

(** X5.  When neither the origin nor the description of an exception
    holds a NUL character, the C string that [what] has assembled at its
    [return] statement is the whole text: ["IN "], the origin, [": "], the
    description and ["!"]. *)
Theorem assembled_message_whole this m :
  nul_free (where_ this) = true ->
  nul_free (type_description this) = true ->
  assembled_message this m
  = Chars ("IN " +:+ where_ this +:+ ": " +:+ type_description this +:+ "!").
Proof. apply assembled_message_nul_free. Qed.

Lemma assembled_message_whole_witness :
  assembled_message (CustomException "validate" "negative probability") []
  = Chars "IN validate: CUSTOM EXCEPTION negative probability!".
Proof.
  apply (assembled_message_whole
           (CustomException "validate" "negative probability") []);
    reflexivity.
Defined.

(** X6.  A NUL character in the origin ends the C string assembled by
    [what]: when the origin is [o1], a NUL character and [o2], with no NUL
    in [o1], the C string is ["IN "] followed by [o1], and neither the
    rest of the origin nor the description is part of it. *)
Theorem assembled_message_cut_in_origin this (o1 o2 : string) m :
  where_ this = o1 +:+ String Ascii.zero o2 ->
  nul_free o1 = true ->
  assembled_message this m = Chars ("IN " +:+ o1).
Proof.
  intros Hw Ho. rewrite assembled_message_eq. f_equal.
  unfold render_spec. rewrite Hw.
  replace ("IN " +:+ (o1 +:+ String Ascii.zero o2) +:+ ": "
           +:+ type_description this +:+ "!")
    with (("IN " +:+ o1)
          +:+ String Ascii.zero (o2 +:+ ": " +:+ type_description this +:+ "!"))
    by (rewrite !append_assoc; reflexivity).
  apply until_nul_cut. rewrite nul_free_append, Ho. reflexivity.
Qed.

Lemma assembled_message_cut_in_origin_witness :
  assembled_message (new MatrixNotSquare ("a" +:+ String Ascii.zero "b")) []
  = Chars "IN a".
Proof.
  apply (assembled_message_cut_in_origin
           (new MatrixNotSquare ("a" +:+ String Ascii.zero "b"))
           "a" "b" []);
    reflexivity.
Defined.

(** X7.  A NUL character in the message of a [CustomException] ends the C
    string assembled by [what]: when the origin holds no NUL and the
    message is [d1], a NUL character and [d2], with no NUL in [d1], the C
    string is ["IN "], the origin, [": CUSTOM EXCEPTION "] and [d1], without
    the closing ["!"]. *)
Theorem assembled_message_cut_in_detail (origin d1 d2 : string) m :
  nul_free origin = true ->
  nul_free d1 = true ->
  assembled_message (CustomException origin (d1 +:+ String Ascii.zero d2)) m
  = Chars ("IN " +:+ origin +:+ ": CUSTOM EXCEPTION " +:+ d1).
Proof.
  intros Ho Hd. rewrite assembled_message_eq. f_equal.
  unfold render_spec. cbn [where_ type_description].
  replace ("IN " +:+ origin +:+ ": "
           +:+ ("CUSTOM EXCEPTION " +:+ d1 +:+ String Ascii.zero d2) +:+ "!")
    with (("IN " +:+ origin +:+ ": CUSTOM EXCEPTION " +:+ d1)
          +:+ String Ascii.zero (d2 +:+ "!")).
  - apply until_nul_cut. rewrite !nul_free_append, Ho, Hd. reflexivity.
  - change ": CUSTOM EXCEPTION " with (": " +:+ "CUSTOM EXCEPTION ").
    rewrite !append_assoc. reflexivity.
Qed.

Lemma assembled_message_cut_in_detail_witness :
  assembled_message
    (CustomException "f" ("ab" +:+ String Ascii.zero "cd")) [Dead]
  = Chars ("IN " +:+ "f" +:+ ": CUSTOM EXCEPTION " +:+ "ab").
Proof.
  apply (assembled_message_cut_in_detail "f" "ab" "cd" [Dead]); reflexivity.
Defined.

(** X8.  For a class with a fixed description and an origin without NUL
    character, the C string assembled by [what] is longer than the origin
    by the six characters of ["IN "], [": "] and ["!"] and by the length of
    the description, that is by at least 19 and at most 46 characters. *)
Theorem assembled_message_fixed_length (K : Kind) (origin : string) m :
  nul_free origin = true ->
  exists s : string,
    assembled_message (new K origin) m = Chars s /\
    String.length s
    = String.length origin + 6
      + String.length (type_description (new K origin)) /\
    String.length origin + 19 <= String.length s <= String.length origin + 46.
Proof.
  intros Ho. exists (render_spec (new K origin)).
  split; [now apply assembled_message_fixed|].
  unfold render_spec. rewrite where_new, !length_append.
  destruct K; cbn; lia.
Qed.

Lemma assembled_message_fixed_length_witness :
  exists s : string,
    assembled_message (new DimsMismatchCvector "kron") [] = Chars s /\
    String.length s
    = String.length "kron" + 6
      + String.length (type_description (new DimsMismatchCvector "kron")) /\
    String.length "kron" + 19 <= String.length s <= String.length "kron" + 46.
Proof.
  apply (assembled_message_fixed_length DimsMismatchCvector "kron" []).
  reflexivity.
Defined.

End CString.

(** ** [what] and the rest of the store *)

Section Frame.

(** X9.  A call of [what] changes nothing for the strings that existed
    before it: a pointer into any of them reads after the call as it did
    before, whether the string was alive or destroyed. *)
Theorem what_preserves_reads
    (this : Exception) (m m' : memory) (p q : pointer) :
  what this m = Some (p, m') ->
  block q < length m ->
  read_cstr q m' = read_cstr q m.
Proof.
  rewrite what_run. intros [= <- <-] Hq.
  unfold read_cstr.
  replace ((m ++ [Dead]) !! block q) with (m !! block q); [reflexivity|].
  symmetry. apply lookup_app_l. exact Hq.
Qed.

Lemma what_preserves_reads_witness :
  read_cstr (Pointer 1 2) [Dead; Live "qubit"; Dead]
  = read_cstr (Pointer 1 2) [Dead; Live "qubit"].
Proof.
  apply (what_preserves_reads (new NotQubitSubsys "ptrace")
           [Dead; Live "qubit"] [Dead; Live "qubit"; Dead]
           (Pointer 2 0) (Pointer 1 2)).
  - reflexivity.
  - cbn. lia.
Defined.

(** X10.  No later call of [what] brings an earlier result back: after a
    call of [what] on one exception and a second call on any exception,
    neither the pointer returned first nor the pointer returned second can
    be read. *)
Theorem what_results_stay_unreadable
    (this1 this2 : Exception) (m m1 m2 : memory) (p1 p2 : pointer) :
  what this1 m = Some (p1, m1) ->
  what this2 m1 = Some (p2, m2) ->
  read_cstr p1 m2 = Undefined /\ read_cstr p2 m2 = Undefined.
Proof.
  rewrite !what_run. intros [= <- <-] [= <- <-]. split.
  - unfold read_cstr. cbn [block].
    replace ((m ++ [Dead]) ++ [Dead]) with (m ++ [Dead; Dead])
      by (rewrite <- app_assoc; reflexivity).
    replace ((m ++ [Dead; Dead]) !! length m) with (Some Dead);
      [reflexivity|].
    symmetry. apply list_lookup_middle. reflexivity.
  - apply read_cstr_dead.
Qed.

Lemma what_results_stay_unreadable_witness :
  read_cstr (Pointer 1 0) [Live "x"; Dead; Dead] = Undefined /\
  read_cstr (Pointer 2 0) [Live "x"; Dead; Dead] = Undefined.
Proof.
  apply (what_results_stay_unreadable
           (new OutOfRange "rand") (CustomException "rand" "p not in [0,1]")
           [Live "x"] [Live "x"; Dead] [Live "x"; Dead; Dead]);
    reflexivity.
Defined.

End Frame.
